(** * linux/libc-compat.h: the guard macros it defines, as a preprocessor run

    [generic/include/linux/libc-compat.h] contains nothing but conditional
    inclusion directives and object-like macro definitions.  Its meaning is
    the way it transforms the macro environment of the translation unit that
    includes it.  This development embeds

    - the macro environment as a finite map from macro names to replacement
      lists,
    - the directives the header uses ([#define], [#ifdef], [#ifndef],
      [#if defined(..)], [#else], [#endif]) as a small syntax tree with an
      executable semantics on that map,
    - the header itself, directive by directive,

    and proves what the header guarantees about the [__UAPI_DEF_*] guards. *)

From Stdlib Require Import ZArith Ascii String.
From stdpp Require Import gmap strings list fin_maps.

Set Warnings "-clear-no-such-hyp".

Local Open Scope Z_scope.
Local Open Scope string_scope.
Local Open Scope list_scope.

(** ** The preprocessor fragment *)

(** The macro environment: name |-> replacement list.  The header only
    defines object-like macros whose replacement list is empty or a single
    pp-number, so a replacement list is kept as its spelling. *)
Abbreviation macro_env := (gmap string string).

(** The three spellings of a conditional the header uses. *)
Inductive pp_cond : Type :=
| IfDef (m : string)       (* #ifdef m *)
| IfNDef (m : string)      (* #ifndef m *)
| IfDefined (m : string).  (* #if defined(m) *)

(** A directive: a definition, or a conditional group with its [#else]
    group (empty when the source has none). *)
#[warnings="-register-all"] Inductive directive : Type :=
| Define (name body : string)
| Cond (c : pp_cond) (thn els : list directive).

Definition defined (env : macro_env) (m : string) : Prop := is_Some (env !! m).

Definition definedb (env : macro_env) (m : string) : bool :=
  match env !! m with Some _ => true | None => false end.

Definition tested (c : pp_cond) : string :=
  match c with IfDef m | IfNDef m | IfDefined m => m end.

Definition cond_holds (env : macro_env) (c : pp_cond) : bool :=
  match c with
  | IfDef m | IfDefined m => definedb env m
  | IfNDef m => negb (definedb env m)
  end.

(** Running a directive.  [#define] binds the name to its replacement list
    (a compiler that meets a previous, different definition diagnoses it and
    goes on with the new one; the environment that results is what is
    modelled).  A conditional runs exactly one of its two groups. *)
Fixpoint exec (d : directive) (env : macro_env) : macro_env :=
  match d with
  | Define n b => <[n := b]> env
  | Cond c thn els =>
      let run := fix run (ds : list directive) (env : macro_env) : macro_env :=
        match ds with
        | [] => env
        | d :: ds' => run ds' (exec d env)
        end in
      if cond_holds env c then run thn env else run els env
  end.

Fixpoint run (ds : list directive) (env : macro_env) : macro_env :=
  match ds with
  | [] => env
  | d :: ds' => run ds' (exec d env)
  end.

(** The names a directive list can define, on any path through it. *)
Fixpoint names_of (d : directive) : list string :=
  match d with
  | Define n _ => [n]
  | Cond _ thn els =>
      let go := fix go (ds : list directive) : list string :=
        match ds with
        | [] => []
        | d :: ds' => names_of d ++ go ds'
        end in
      go thn ++ go els
  end.

Fixpoint defined_names (ds : list directive) : list string :=
  match ds with
  | [] => []
  | d :: ds' => names_of d ++ defined_names ds'
  end.

(** *** Integer value of a macro *)

(** A decimal digit. *)
Definition digit_of (a : ascii) : option Z :=
  let n := Z.of_N (N_of_ascii a) in
  if ((48 <=? n) && (n <=? 57))%Z then Some (n - 48)%Z else None.

Fixpoint decimal_acc (s : string) (acc : Z) : option Z :=
  match s with
  | EmptyString => Some acc
  | String a s' =>
      match digit_of a with
      | Some d => decimal_acc s' (10 * acc + d)%Z
      | None => None
      end
  end.

(** The value of a replacement list that is one decimal constant: [0], or
    digits not starting with 0 (a leading 0 would make the constant octal,
    which this header never writes).  Anything else has no value here. *)
Definition int_literal (s : string) : option Z :=
  match s with
  | EmptyString => None
  | String "0"%char EmptyString => Some 0%Z
  | String "0"%char _ => None
  | _ => decimal_acc s 0%Z
  end.

(** The value a macro is defined to; [None] when it is not defined or its
    replacement list is not a constant. *)
Definition macro_value (env : macro_env) (n : string) : option Z :=
  match env !! n with
  | Some body => int_literal body
  | None => None
  end.

(** The value of the controlling expression of [#if n], the way the UAPI
    headers consume a guard (step (d) of the header's comment): an
    identifier that is not a macro is replaced by 0. *)
Definition if_value (env : macro_env) (n : string) : option Z :=
  match env !! n with
  | Some body => int_literal body
  | None => Some 0%Z
  end.

(** *** The definitions a run executes, and the ones it diagnoses *)

(** The [#define] directives a run executes, in order, each with its name
    and replacement list. *)
Fixpoint exec_log (d : directive) (env : macro_env) : list (string * string) :=
  match d with
  | Define n b => [(n, b)]
  | Cond c thn els =>
      let log := fix log (ds : list directive) (env : macro_env)
        : list (string * string) :=
        match ds with
        | [] => []
        | d :: ds' => exec_log d env ++ log ds' (exec d env)
        end in
      if cond_holds env c then log thn env else log els env
  end.

Fixpoint run_log (ds : list directive) (env : macro_env)
  : list (string * string) :=
  match ds with
  | [] => []
  | d :: ds' => exec_log d env ++ run_log ds' (exec d env)
  end.

(** [#define n b] redefines [n]: it is already defined, with a different
    replacement list (defining it again the same way is allowed). *)
Definition redefines (env : macro_env) (n b : string) : bool :=
  match env !! n with
  | Some b' => negb (String.eqb b' b)
  | None => false
  end.

(** The names whose [#define] a run has to diagnose as a redefinition. *)
Fixpoint exec_diag (d : directive) (env : macro_env) : list string :=
  match d with
  | Define n b => if redefines env n b then [n] else []
  | Cond c thn els =>
      let diag := fix diag (ds : list directive) (env : macro_env)
        : list string :=
        match ds with
        | [] => []
        | d :: ds' => exec_diag d env ++ diag ds' (exec d env)
        end in
      if cond_holds env c then diag thn env else diag els env
  end.

Fixpoint run_diag (ds : list directive) (env : macro_env) : list string :=
  match ds with
  | [] => []
  | d :: ds' => exec_diag d env ++ run_diag ds' (exec d env)
  end.

(** Carrying out a list of definitions, and the redefinitions among them. *)
Definition replay (l : list (string * string)) (env : macro_env) : macro_env :=
  foldl (fun e nb => <[nb.1 := nb.2]> e) env l.

Fixpoint replay_diag (l : list (string * string)) (env : macro_env)
  : list string :=
  match l with
  | [] => []
  | nb :: l' =>
      (if redefines env nb.1 nb.2 then [nb.1] else [])
      ++ replay_diag l' (<[nb.1 := nb.2]> env)
  end.

(** *** The two shapes the header is built from *)

(** A run of definitions that give every listed name the same replacement
    list. *)
Definition set_all (body : string) (names : list string) : list directive :=
  map (fun n => Define n body) names.

(** A detection block: when the condition holds every listed guard becomes 0,
    otherwise every one becomes 1. *)
Definition block (row : pp_cond * list string) : directive :=
  Cond row.1 (set_all "0" row.2) (set_all "1" row.2).

Definition blocks (tbl : list (pp_cond * list string)) : list directive :=
  map block tbl.

(** The rows of a list of conditionals: condition and the names its first
    group defines. *)
Definition rows (ds : list directive) : list (pp_cond * list string) :=
  omap (fun d => match d with
                 | Cond c thn _ => Some (c, defined_names thn)
                 | Define _ _ => None
                 end) ds.

(** The condition of the block that decides a name; a later block wins. *)
Fixpoint owner (tbl : list (pp_cond * list string)) (n : string)
  : option pp_cond :=
  match tbl with
  | [] => None
  | row :: tbl' =>
      match owner tbl' n with
      | Some c => Some c
      | None => if bool_decide (n ∈ row.2) then Some row.1 else None
      end
  end.

(** All names a table mentions in a condition. *)
Definition tested_names (tbl : list (pp_cond * list string)) : list string :=
  map (fun row => tested row.1) tbl.

(** All names a table defines. *)
Definition table_names (tbl : list (pp_cond * list string)) : list string :=
  concat (map snd tbl).

(** ** The header *)

Module LibcCompat.

(** Lines 53-154: the groups taken when [__KERNEL__] is not defined. *)
Definition userspace : list directive :=
  [ (* 53-57 *)
    Cond (IfDef "_NETINET_IF_ETHER_H")
      [ Define "__UAPI_DEF_ETHHDR" "0" ]
      [ Define "__UAPI_DEF_ETHHDR" "1" ];
    (* 59-63 *)
    Cond (IfDef "_NETINET_TCP_H")
      [ Define "__UAPI_DEF_TCPHDR" "0" ]
      [ Define "__UAPI_DEF_TCPHDR" "1" ];
    (* 65-71 *)
    Cond (IfDef "_TIME_H")
      [ Define "__UAPI_DEF_TIMESPEC" "0";
        Define "__UAPI_DEF_ITIMERSPEC" "0" ]
      [ Define "__UAPI_DEF_TIMESPEC" "1";
        Define "__UAPI_DEF_ITIMERSPEC" "1" ];
    (* 73-81 *)
    Cond (IfDef "_SYS_TIME_H")
      [ Define "__UAPI_DEF_TIMEVAL" "0";
        Define "__UAPI_DEF_ITIMERVAL" "0";
        Define "__UAPI_DEF_TIMEZONE" "0" ]
      [ Define "__UAPI_DEF_TIMEVAL" "1";
        Define "__UAPI_DEF_ITIMERVAL" "1";
        Define "__UAPI_DEF_TIMEZONE" "1" ];
    (* 83-97 *)
    Cond (IfDef "_NET_IF_H")
      [ Define "__UAPI_DEF_IF_IFNAMSIZ" "0";
        Define "__UAPI_DEF_IF_NET_DEVICE_FLAGS_LOWER_UP_DORMANT_ECHO" "0";
        Define "__UAPI_DEF_IF_NET_DEVICE_FLAGS" "0";
        Define "__UAPI_DEF_IF_IFMAP" "0";
        Define "__UAPI_DEF_IF_IFREQ" "0";
        Define "__UAPI_DEF_IF_IFCONF" "0" ]
      [ Define "__UAPI_DEF_IF_IFNAMSIZ" "1";
        Define "__UAPI_DEF_IF_NET_DEVICE_FLAGS_LOWER_UP_DORMANT_ECHO" "1";
        Define "__UAPI_DEF_IF_NET_DEVICE_FLAGS" "1";
        Define "__UAPI_DEF_IF_IFMAP" "1";
        Define "__UAPI_DEF_IF_IFREQ" "1";
        Define "__UAPI_DEF_IF_IFCONF" "1" ];
    (* 100-147 *)
    Cond (IfDefined "_NETINET_IN_H")
      [ Define "__UAPI_DEF_IN_ADDR" "0";
        Define "__UAPI_DEF_IN_IPPROTO" "0";
        Define "__UAPI_DEF_IN_PKTINFO" "0";
        Define "__UAPI_DEF_IP_MREQ" "0";
        Define "__UAPI_DEF_SOCKADDR_IN" "0";
        Define "__UAPI_DEF_IN_CLASS" "0";
        Define "__UAPI_DEF_IN6_ADDR" "0";
        Define "__UAPI_DEF_IN6_ADDR_ALT" "0";
        Define "__UAPI_DEF_SOCKADDR_IN6" "0";
        Define "__UAPI_DEF_IPV6_MREQ" "0";
        Define "__UAPI_DEF_IPPROTO_V6" "0";
        Define "__UAPI_DEF_IPV6_OPTIONS" "0";
        Define "__UAPI_DEF_IN6_PKTINFO" "0";
        Define "__UAPI_DEF_IP6_MTUINFO" "0" ]
      [ Define "__UAPI_DEF_IN_ADDR" "1";
        Define "__UAPI_DEF_IN_IPPROTO" "1";
        Define "__UAPI_DEF_IN_PKTINFO" "1";
        Define "__UAPI_DEF_IP_MREQ" "1";
        Define "__UAPI_DEF_SOCKADDR_IN" "1";
        Define "__UAPI_DEF_IN_CLASS" "1";
        Define "__UAPI_DEF_IN6_ADDR" "1";
        Define "__UAPI_DEF_IN6_ADDR_ALT" "1";
        Define "__UAPI_DEF_SOCKADDR_IN6" "1";
        Define "__UAPI_DEF_IPV6_MREQ" "1";
        Define "__UAPI_DEF_IPPROTO_V6" "1";
        Define "__UAPI_DEF_IPV6_OPTIONS" "1";
        Define "__UAPI_DEF_IN6_PKTINFO" "1";
        Define "__UAPI_DEF_IP6_MTUINFO" "1" ];
    (* 150-154 *)
    Cond (IfDefined "_SYS_XATTR_H")
      [ Define "__UAPI_DEF_XATTR" "0" ]
      [ Define "__UAPI_DEF_XATTR" "1" ] ].

(** Lines 161-196: the [#else] group of [#ifndef __KERNEL__]. *)
Definition kernel : list directive :=
  [ Define "__UAPI_DEF_IN_ADDR" "1";
    Define "__UAPI_DEF_IN_IPPROTO" "1";
    Define "__UAPI_DEF_IN_PKTINFO" "1";
    Define "__UAPI_DEF_IP_MREQ" "1";
    Define "__UAPI_DEF_SOCKADDR_IN" "1";
    Define "__UAPI_DEF_IN_CLASS" "1";
    Define "__UAPI_DEF_IN6_ADDR" "1";
    Define "__UAPI_DEF_IN6_ADDR_ALT" "1";
    Define "__UAPI_DEF_SOCKADDR_IN6" "1";
    Define "__UAPI_DEF_IPV6_MREQ" "1";
    Define "__UAPI_DEF_IPPROTO_V6" "1";
    Define "__UAPI_DEF_IPV6_OPTIONS" "1";
    Define "__UAPI_DEF_IN6_PKTINFO" "1";
    Define "__UAPI_DEF_IP6_MTUINFO" "1";
    Define "__UAPI_DEF_XATTR" "1";
    Define "__UAPI_DEF_TCPHDR" "1";
    Define "__UAPI_DEF_ETHHDR" "1";
    Define "__UAPI_DEF_TIMESPEC" "1";
    Define "__UAPI_DEF_ITIMERSPEC" "1";
    Define "__UAPI_DEF_TIMEVAL" "1";
    Define "__UAPI_DEF_ITIMERVAL" "1";
    Define "__UAPI_DEF_TIMEZONE" "1";
    Define "__UAPI_DEF_IF_IFNAMSIZ" "1";
    Define "__UAPI_DEF_IF_NET_DEVICE_FLAGS_LOWER_UP_DORMANT_ECHO" "1";
    Define "__UAPI_DEF_IF_NET_DEVICE_FLAGS" "1";
    Define "__UAPI_DEF_IF_IFMAP" "1";
    Define "__UAPI_DEF_IF_IFREQ" "1";
    Define "__UAPI_DEF_IF_IFCONF" "1" ].

(** Lines 48-200: the whole header. *)
Definition libc_compat_h : list directive :=
  [ Cond (IfNDef "_LIBC_COMPAT_H")
      [ Define "_LIBC_COMPAT_H" "";
        Cond (IfNDef "__KERNEL__") userspace kernel ]
      [] ].

(** Including the header. *)
Definition process (env : macro_env) : macro_env := run libc_compat_h env.

(** *** The guards and their groups *)

Definition include_guard : string := "_LIBC_COMPAT_H".

(** The header's body is reached: this is its first inclusion. *)
Definition first_inclusion (env : macro_env) : Prop :=
  env !! include_guard = None.

(** The guard macros, in the order lines 53-154 define them. *)
Inductive guard : Type :=
| __UAPI_DEF_ETHHDR
| __UAPI_DEF_TCPHDR
| __UAPI_DEF_TIMESPEC
| __UAPI_DEF_ITIMERSPEC
| __UAPI_DEF_TIMEVAL
| __UAPI_DEF_ITIMERVAL
| __UAPI_DEF_TIMEZONE
| __UAPI_DEF_IF_IFNAMSIZ
| __UAPI_DEF_IF_NET_DEVICE_FLAGS_LOWER_UP_DORMANT_ECHO
| __UAPI_DEF_IF_NET_DEVICE_FLAGS
| __UAPI_DEF_IF_IFMAP
| __UAPI_DEF_IF_IFREQ
| __UAPI_DEF_IF_IFCONF
| __UAPI_DEF_IN_ADDR
| __UAPI_DEF_IN_IPPROTO
| __UAPI_DEF_IN_PKTINFO
| __UAPI_DEF_IP_MREQ
| __UAPI_DEF_SOCKADDR_IN
| __UAPI_DEF_IN_CLASS
| __UAPI_DEF_IN6_ADDR
| __UAPI_DEF_IN6_ADDR_ALT
| __UAPI_DEF_SOCKADDR_IN6
| __UAPI_DEF_IPV6_MREQ
| __UAPI_DEF_IPPROTO_V6
| __UAPI_DEF_IPV6_OPTIONS
| __UAPI_DEF_IN6_PKTINFO
| __UAPI_DEF_IP6_MTUINFO
| __UAPI_DEF_XATTR.

#[global] Instance guard_eq_dec : EqDecision guard.
Proof. solve_decision. Defined.

Definition guard_name (g : guard) : string :=
  match g with
  | __UAPI_DEF_ETHHDR => "__UAPI_DEF_ETHHDR"
  | __UAPI_DEF_TCPHDR => "__UAPI_DEF_TCPHDR"
  | __UAPI_DEF_TIMESPEC => "__UAPI_DEF_TIMESPEC"
  | __UAPI_DEF_ITIMERSPEC => "__UAPI_DEF_ITIMERSPEC"
  | __UAPI_DEF_TIMEVAL => "__UAPI_DEF_TIMEVAL"
  | __UAPI_DEF_ITIMERVAL => "__UAPI_DEF_ITIMERVAL"
  | __UAPI_DEF_TIMEZONE => "__UAPI_DEF_TIMEZONE"
  | __UAPI_DEF_IF_IFNAMSIZ => "__UAPI_DEF_IF_IFNAMSIZ"
  | __UAPI_DEF_IF_NET_DEVICE_FLAGS_LOWER_UP_DORMANT_ECHO => "__UAPI_DEF_IF_NET_DEVICE_FLAGS_LOWER_UP_DORMANT_ECHO"
  | __UAPI_DEF_IF_NET_DEVICE_FLAGS => "__UAPI_DEF_IF_NET_DEVICE_FLAGS"
  | __UAPI_DEF_IF_IFMAP => "__UAPI_DEF_IF_IFMAP"
  | __UAPI_DEF_IF_IFREQ => "__UAPI_DEF_IF_IFREQ"
  | __UAPI_DEF_IF_IFCONF => "__UAPI_DEF_IF_IFCONF"
  | __UAPI_DEF_IN_ADDR => "__UAPI_DEF_IN_ADDR"
  | __UAPI_DEF_IN_IPPROTO => "__UAPI_DEF_IN_IPPROTO"
  | __UAPI_DEF_IN_PKTINFO => "__UAPI_DEF_IN_PKTINFO"
  | __UAPI_DEF_IP_MREQ => "__UAPI_DEF_IP_MREQ"
  | __UAPI_DEF_SOCKADDR_IN => "__UAPI_DEF_SOCKADDR_IN"
  | __UAPI_DEF_IN_CLASS => "__UAPI_DEF_IN_CLASS"
  | __UAPI_DEF_IN6_ADDR => "__UAPI_DEF_IN6_ADDR"
  | __UAPI_DEF_IN6_ADDR_ALT => "__UAPI_DEF_IN6_ADDR_ALT"
  | __UAPI_DEF_SOCKADDR_IN6 => "__UAPI_DEF_SOCKADDR_IN6"
  | __UAPI_DEF_IPV6_MREQ => "__UAPI_DEF_IPV6_MREQ"
  | __UAPI_DEF_IPPROTO_V6 => "__UAPI_DEF_IPPROTO_V6"
  | __UAPI_DEF_IPV6_OPTIONS => "__UAPI_DEF_IPV6_OPTIONS"
  | __UAPI_DEF_IN6_PKTINFO => "__UAPI_DEF_IN6_PKTINFO"
  | __UAPI_DEF_IP6_MTUINFO => "__UAPI_DEF_IP6_MTUINFO"
  | __UAPI_DEF_XATTR => "__UAPI_DEF_XATTR"
  end.

Definition all_guards : list guard :=
  [ __UAPI_DEF_ETHHDR;
    __UAPI_DEF_TCPHDR;
    __UAPI_DEF_TIMESPEC;
    __UAPI_DEF_ITIMERSPEC;
    __UAPI_DEF_TIMEVAL;
    __UAPI_DEF_ITIMERVAL;
    __UAPI_DEF_TIMEZONE;
    __UAPI_DEF_IF_IFNAMSIZ;
    __UAPI_DEF_IF_NET_DEVICE_FLAGS_LOWER_UP_DORMANT_ECHO;
    __UAPI_DEF_IF_NET_DEVICE_FLAGS;
    __UAPI_DEF_IF_IFMAP;
    __UAPI_DEF_IF_IFREQ;
    __UAPI_DEF_IF_IFCONF;
    __UAPI_DEF_IN_ADDR;
    __UAPI_DEF_IN_IPPROTO;
    __UAPI_DEF_IN_PKTINFO;
    __UAPI_DEF_IP_MREQ;
    __UAPI_DEF_SOCKADDR_IN;
    __UAPI_DEF_IN_CLASS;
    __UAPI_DEF_IN6_ADDR;
    __UAPI_DEF_IN6_ADDR_ALT;
    __UAPI_DEF_SOCKADDR_IN6;
    __UAPI_DEF_IPV6_MREQ;
    __UAPI_DEF_IPPROTO_V6;
    __UAPI_DEF_IPV6_OPTIONS;
    __UAPI_DEF_IN6_PKTINFO;
    __UAPI_DEF_IP6_MTUINFO;
    __UAPI_DEF_XATTR ].

Definition guard_names : list string := map guard_name all_guards.

(** The definition groups: one per conditional of lines 53-154, except that
    the conditional on [_NETINET_IN_H] (lines 100-147) holds two, the guards
    for in.h and, after the blank line, those for in6.h (lines 161 and 169
    name them). *)
Inductive group : Type :=
| Ethernet | Tcp | Timespec | Timeval | NetIf | Ipv4 | Ipv6 | Xattr.

#[global] Instance group_eq_dec : EqDecision group.
Proof. solve_decision. Defined.

Definition all_groups : list group :=
  [ Ethernet; Tcp; Timespec; Timeval; NetIf; Ipv4; Ipv6; Xattr ].

Definition group_of (g : guard) : group :=
  match g with
  | __UAPI_DEF_ETHHDR => Ethernet
  | __UAPI_DEF_TCPHDR => Tcp
  | __UAPI_DEF_TIMESPEC
  | __UAPI_DEF_ITIMERSPEC => Timespec
  | __UAPI_DEF_TIMEVAL
  | __UAPI_DEF_ITIMERVAL
  | __UAPI_DEF_TIMEZONE => Timeval
  | __UAPI_DEF_IF_IFNAMSIZ
  | __UAPI_DEF_IF_NET_DEVICE_FLAGS_LOWER_UP_DORMANT_ECHO
  | __UAPI_DEF_IF_NET_DEVICE_FLAGS
  | __UAPI_DEF_IF_IFMAP
  | __UAPI_DEF_IF_IFREQ
  | __UAPI_DEF_IF_IFCONF => NetIf
  | __UAPI_DEF_IN_ADDR
  | __UAPI_DEF_IN_IPPROTO
  | __UAPI_DEF_IN_PKTINFO
  | __UAPI_DEF_IP_MREQ
  | __UAPI_DEF_SOCKADDR_IN
  | __UAPI_DEF_IN_CLASS => Ipv4
  | __UAPI_DEF_IN6_ADDR
  | __UAPI_DEF_IN6_ADDR_ALT
  | __UAPI_DEF_SOCKADDR_IN6
  | __UAPI_DEF_IPV6_MREQ
  | __UAPI_DEF_IPPROTO_V6
  | __UAPI_DEF_IPV6_OPTIONS
  | __UAPI_DEF_IN6_PKTINFO
  | __UAPI_DEF_IP6_MTUINFO => Ipv6
  | __UAPI_DEF_XATTR => Xattr
  end.

(** The include guard of the competing libc header a group looks for. *)
Definition marker_of (gr : group) : string :=
  match gr with
  | Ethernet => "_NETINET_IF_ETHER_H"
  | Tcp => "_NETINET_TCP_H"
  | Timespec => "_TIME_H"
  | Timeval => "_SYS_TIME_H"
  | NetIf => "_NET_IF_H"
  | Ipv4 | Ipv6 => "_NETINET_IN_H"
  | Xattr => "_SYS_XATTR_H"
  end.

Definition guards_of (gr : group) : list guard :=
  filter (fun g => group_of g = gr) all_guards.

(** The value of a guard after a run. *)
Definition guard_value (env : macro_env) (g : guard) : option Z :=
  macro_value env (guard_name g).

(** The include guards of the libc headers the header looks for, in the
    order lines 53-154 test them. *)
Definition markers : list string :=
  [ "_NETINET_IF_ETHER_H"; "_NETINET_TCP_H"; "_TIME_H"; "_SYS_TIME_H";
    "_NET_IF_H"; "_NETINET_IN_H"; "_SYS_XATTR_H" ].

(** The guards of in.h and in6.h together. *)
Definition in_guards : list guard := guards_of Ipv4 ++ guards_of Ipv6.

(** The environment of a translation unit that has defined the listed
    macros (with an empty replacement list, as an include guard is) and
    nothing else before it includes the header. *)
Definition configuration (ms : list string) : macro_env :=
  list_to_map (map (fun m => (m, "")) ms).

(** The definitions an inclusion of the header executes, and the
    redefinitions it has to diagnose. *)
Definition header_log (env : macro_env) : list (string * string) :=
  run_log libc_compat_h env.

Definition header_diag (env : macro_env) : list string :=
  run_diag libc_compat_h env.

(** The replacement list the first inclusion gives a guard. *)
Definition guard_body (env : macro_env) (g : guard) : string :=
  if definedb env "__KERNEL__" then "1"
  else if definedb env (marker_of (group_of g)) then "0" else "1".

(** Every name the header tests or defines. *)
Definition header_reads : list string := "__KERNEL__" :: markers.

Definition header_writes : list string := include_guard :: guard_names.

(** *** Two readings that the header does not implement *)

(** The marker alone decides its group, whatever else is defined. *)
Definition marker_alone_decides : Prop :=
  forall (env : macro_env) (g : guard),
    first_inclusion env ->
    (definedb env (marker_of (group_of g)) = true ->
       guard_value (process env) g = Some 0%Z) /\
    (definedb env (marker_of (group_of g)) = false ->
       guard_value (process env) g = Some 1%Z).

(** Every group is guarded by a single name. *)
Definition one_guard_per_group : Prop :=
  forall gr : group,
    exists g : guard, group_of g = gr /\
      forall g' : guard, group_of g' = gr -> guard_name g' = guard_name g.

End LibcCompat.

Import LibcCompat.

(** ** Facts about the preprocessor fragment *)

Section Preprocessor.

Implicit Types (env : macro_env) (d : directive) (ds : list directive)
  (n m body : string) (c : pp_cond).

Lemma exec_Cond c thn els env :
  exec (Cond c thn els) env
  = if cond_holds env c then run thn env else run els env.
Proof. reflexivity. Qed.

Lemma names_of_Cond c thn els :
  names_of (Cond c thn els) = defined_names thn ++ defined_names els.
Proof. reflexivity. Qed.

Lemma run_cons d ds env : run (d :: ds) env = run ds (exec d env).
Proof. reflexivity. Qed.

(** Induction over a directive together with the directive lists nested in
    it. *)
Lemma directive_list_ind (P : directive -> Prop) (Q : list directive -> Prop) :
  (forall n body, P (Define n body)) ->
  (forall c thn els, Q thn -> Q els -> P (Cond c thn els)) ->
  Q [] ->
  (forall d ds, P d -> Q ds -> Q (d :: ds)) ->
  forall ds, Q ds.
Proof.
  intros HDef HCond Hnil Hcons.
  assert (HP : forall d, P d).
  { fix IH 1. intros [n body | c thn els].
    - apply HDef.
    - apply HCond.
      + induction thn as [|d thn IHthn]; [exact Hnil | apply Hcons; [apply IH | exact IHthn]].
      + induction els as [|d els IHels]; [exact Hnil | apply Hcons; [apply IH | exact IHels]]. }
  induction ds as [|d ds IHds]; [exact Hnil | apply Hcons; auto].
Qed.

Lemma definedb_true env m : definedb env m = true <-> defined env m.
Proof.
  unfold definedb, defined. destruct (env !! m) as [b|]; split; intros H; eauto.
  - discriminate.
  - by destruct H.
Qed.

(** Frame: a name no directive of the list defines keeps its binding. *)
Lemma run_frame : forall ds env n,
  n ∉ defined_names ds -> run ds env !! n = env !! n.
Proof.
  apply (directive_list_ind
           (fun d => forall env n, n ∉ names_of d -> exec d env !! n = env !! n)
           (fun ds => forall env n,
                n ∉ defined_names ds -> run ds env !! n = env !! n));
    [intros n' body | intros c thn els IHthn IHels | | intros d ds IHd IHds];
    intros env n Hn.
  - simpl in *. apply lookup_insert_ne. set_solver.
  - rewrite exec_Cond. rewrite names_of_Cond in Hn.
    destruct (cond_holds env c); [apply IHthn | apply IHels]; set_solver.
  - reflexivity.
  - simpl in *. rewrite IHds by set_solver. apply IHd. set_solver.
Qed.

Lemma exec_frame d env n : n ∉ names_of d -> exec d env !! n = env !! n.
Proof.
  intros Hn. apply (run_frame [d] env n). simpl. by rewrite app_nil_r.
Qed.

(** There is no [#undef]: what is defined stays defined. *)
Lemma run_defined_mono : forall ds env n,
  defined env n -> defined (run ds env) n.
Proof.
  apply (directive_list_ind
           (fun d => forall env n, defined env n -> defined (exec d env) n)
           (fun ds => forall env n, defined env n -> defined (run ds env) n));
    [intros n' body | intros c thn els IHthn IHels | | intros d ds IHd IHds];
    intros env n Hn; unfold defined in *.
  - simpl. destruct (decide (n' = n)) as [->|Hne].
    + rewrite lookup_insert_eq. eauto.
    + by rewrite lookup_insert_ne.
  - rewrite exec_Cond. destruct (cond_holds env c); [by apply IHthn | by apply IHels].
  - done.
  - simpl. by apply IHds, IHd.
Qed.

Lemma cond_holds_frame c env env' :
  env' !! tested c = env !! tested c -> cond_holds env' c = cond_holds env c.
Proof. destruct c; simpl; unfold definedb; by intros ->. Qed.

(** A run of equal definitions. *)
Lemma defined_names_set_all body names :
  defined_names (set_all body names) = names.
Proof. induction names as [|n names IH]; simpl; [done | by rewrite IH]. Qed.

Lemma run_set_all body names : forall env n,
  run (set_all body names) env !! n
  = if bool_decide (n ∈ names) then Some body else env !! n.
Proof.
  induction names as [|n' names IH]; intros env n; simpl.
  - done.
  - rewrite IH. destruct (decide (n ∈ names)) as [Hin|Hnin].
    + rewrite !bool_decide_eq_true_2; [done | set_solver | done].
    + rewrite (bool_decide_eq_false_2 (n ∈ names)) by done.
      destruct (decide (n = n')) as [->|Hne].
      * rewrite lookup_insert_eq, bool_decide_eq_true_2; [done | set_solver].
      * rewrite lookup_insert_ne by done.
        rewrite bool_decide_eq_false_2; [done | set_solver].
Qed.

(** One detection block. *)
Lemma exec_block row env n :
  exec (block row) env !! n
  = if bool_decide (n ∈ row.2)
    then Some (if cond_holds env row.1 then "0" else "1")
    else env !! n.
Proof.
  unfold block. rewrite exec_Cond.
  destruct (cond_holds env row.1); apply run_set_all.
Qed.

Lemma names_of_block row : names_of (block row) = row.2 ++ row.2.
Proof. unfold block. by rewrite names_of_Cond, !defined_names_set_all. Qed.

Lemma owner_cons row tbl n :
  owner (row :: tbl) n
  = match owner tbl n with
    | Some c => Some c
    | None => if bool_decide (n ∈ row.2) then Some row.1 else None
    end.
Proof. reflexivity. Qed.

Lemma owner_in tbl n c : owner tbl n = Some c -> c ∈ map fst tbl.
Proof.
  induction tbl as [|r tbl IHt]; [done|].
  rewrite owner_cons. destruct (owner tbl n) as [c'|].
  - intros [= ->]. right. by apply IHt.
  - case_bool_decide; intros [= <-]. by left.
Qed.

(** A sequence of detection blocks none of which defines a name another one
    tests: each name is decided by its block, from the definedness of that
    block's marker in the environment the sequence started from. *)
Lemma run_blocks tbl : forall env n,
  (forall m, m ∈ tested_names tbl -> m ∉ table_names tbl) ->
  run (blocks tbl) env !! n
  = match owner tbl n with
    | Some c => Some (if cond_holds env c then "0" else "1")
    | None => env !! n
    end.
Proof.
  induction tbl as [|row tbl IH]; intros env n Hsep; [done|].
  assert (Hsep' : forall m, m ∈ tested_names tbl -> m ∉ table_names tbl).
  { intros m Hm. specialize (Hsep m). unfold tested_names, table_names in *.
    simpl in Hsep. set_solver. }
  assert (Hrow : forall c, c ∈ map fst tbl ->
            cond_holds (exec (block row) env) c = cond_holds env c).
  { intros c Hc. apply cond_holds_frame, exec_frame.
    rewrite names_of_block.
    assert (Hin : tested c ∈ tested_names (row :: tbl)).
    { unfold tested_names. simpl. apply list_elem_of_fmap in Hc as [r [-> Hr]].
      right. apply list_elem_of_fmap. eauto. }
    specialize (Hsep _ Hin). unfold table_names in Hsep. simpl in Hsep. set_solver. }
  change (blocks (row :: tbl)) with (block row :: blocks tbl).
  rewrite run_cons, (IH _ _ Hsep'), owner_cons.
  destruct (owner tbl n) as [c|] eqn:Hown.
  - rewrite Hrow; [done|]. by apply owner_in with n.
  - rewrite exec_block. by case_bool_decide.
Qed.

End Preprocessor.

(** ** Facts about the header *)

(** Closed decidable facts about the header's names are settled by running
    their decision procedure. *)
Ltac decide_by_computation :=
  apply (bool_decide_unpack _); vm_compute; exact I.

Section Header.

Implicit Types (env : macro_env) (g : guard) (gr : group) (n : string).

(** Lines 53-154 are a sequence of detection blocks, and lines 161-196 set
    every name they list to 1. *)
Lemma userspace_shape : userspace = blocks (rows userspace).
Proof. reflexivity. Qed.

Lemma kernel_shape : kernel = set_all "1" (defined_names kernel).
Proof. reflexivity. Qed.

(** The blocks define the guards, in order, and nothing else. *)
Lemma userspace_names : table_names (rows userspace) = guard_names.
Proof. reflexivity. Qed.

Lemma guard_name_in g : guard_name g ∈ guard_names.
Proof. unfold guard_names. apply list_elem_of_fmap. exists g. split; [done|]. destruct g; set_solver. Qed.

Lemma guard_names_inv n : n ∈ guard_names -> exists g, n = guard_name g.
Proof. unfold guard_names. intros H. apply list_elem_of_fmap in H as [g [-> _]]. eauto. Qed.

(** The [#else] group of [#ifndef __KERNEL__] lists the same names. *)
Lemma kernel_names n : n ∈ defined_names kernel <-> n ∈ guard_names.
Proof.
  assert (H1 : Forall (fun n => n ∈ guard_names) (defined_names kernel))
    by decide_by_computation.
  assert (H2 : Forall (fun n => n ∈ defined_names kernel) guard_names)
    by decide_by_computation.
  rewrite Forall_forall in H1, H2. split; auto.
Qed.

(** Every name the header can define is the include guard or a guard. *)
Lemma header_names n :
  n ∈ defined_names libc_compat_h <-> n = include_guard \/ n ∈ guard_names.
Proof.
  assert (H1 : Forall (fun n => n ∈ include_guard :: guard_names)
                 (defined_names libc_compat_h))
    by decide_by_computation.
  assert (H2 : Forall (fun n => n ∈ defined_names libc_compat_h)
                 (include_guard :: guard_names))
    by decide_by_computation.
  rewrite Forall_forall in H1, H2. split.
  - intros H. apply H1 in H. set_solver.
  - intros H. apply H2. set_solver.
Qed.

(** No block tests a name that a block defines. *)
Lemma userspace_separated m :
  m ∈ tested_names (rows userspace) -> m ∉ table_names (rows userspace).
Proof.
  assert (H : Forall (fun m => m ∉ table_names (rows userspace))
                (tested_names (rows userspace)))
    by decide_by_computation.
  rewrite Forall_forall in H. apply H.
Qed.

(** The block that decides a guard tests the marker of the guard's group. *)
Lemma owner_guard g :
  exists c, owner (rows userspace) (guard_name g) = Some c /\
    forall env, cond_holds env c = definedb env (marker_of (group_of g)).
Proof. destruct g; (eexists; split; [vm_compute; reflexivity | reflexivity]). Qed.

Lemma marker_not_guard gr : marker_of gr ∉ include_guard :: guard_names.
Proof. destruct gr; decide_by_computation. Qed.

(** A later inclusion skips the body. *)
Lemma process_again env : ~ first_inclusion env -> process env = env.
Proof.
  unfold first_inclusion, process, libc_compat_h. intros H.
  rewrite run_cons, exec_Cond. simpl cond_holds. unfold definedb.
  fold include_guard. by destruct (env !! include_guard).
Qed.

(** The first inclusion runs one of the two branches after defining the
    include guard. *)
Lemma process_first env :
  first_inclusion env ->
  process env
  = run (if definedb env "__KERNEL__" then kernel else userspace)
        (<[include_guard := ""]> env).
Proof.
  unfold first_inclusion, process, libc_compat_h. intros H.
  rewrite run_cons, exec_Cond. simpl cond_holds. unfold definedb at 1.
  fold include_guard. rewrite H. simpl negb. cbv iota.
  rewrite run_cons. change (exec (Define "_LIBC_COMPAT_H" "") env)
    with (<[include_guard := ""]> env).
  rewrite run_cons, exec_Cond. simpl cond_holds.
  assert (Hk : definedb (<[include_guard := ""]> env) "__KERNEL__"
               = definedb env "__KERNEL__").
  { unfold definedb. by rewrite lookup_insert_ne. }
  rewrite Hk. by destruct (definedb env "__KERNEL__").
Qed.

(** What a guard is defined to by the first inclusion. *)
Lemma process_guard env g :
  first_inclusion env ->
  process env !! guard_name g
  = Some (if definedb env "__KERNEL__" then "1"
          else if definedb env (marker_of (group_of g)) then "0" else "1").
Proof.
  intros H. rewrite (process_first _ H).
  destruct (definedb env "__KERNEL__").
  - rewrite kernel_shape, run_set_all.
    rewrite bool_decide_eq_true_2; [done|].
    apply kernel_names, guard_name_in.
  - rewrite userspace_shape, run_blocks by apply userspace_separated.
    destruct (owner_guard g) as (c & -> & Hc). rewrite Hc.
    assert (Hm : definedb (<[include_guard := ""]> env) (marker_of (group_of g))
                 = definedb env (marker_of (group_of g))).
    { unfold definedb. rewrite lookup_insert_ne; [done|].
      intros E. apply (marker_not_guard (group_of g)). rewrite <- E. by left. }
    by rewrite Hm.
Qed.

Lemma process_include_guard env : defined (process env) include_guard.
Proof.
  destruct (env !! include_guard) as [b|] eqn:E.
  - rewrite process_again; unfold first_inclusion, defined; rewrite E; eauto; done.
  - rewrite (process_first _ E). apply run_defined_mono.
    unfold defined. rewrite lookup_insert_eq. eauto.
Qed.

(** Frame: every other macro keeps its binding, first inclusion or not. *)
Lemma process_other env n :
  n ∉ include_guard :: guard_names -> process env !! n = env !! n.
Proof.
  intros Hn. apply run_frame. rewrite header_names. set_solver.
Qed.

Lemma guard_value_body env g b :
  env !! guard_name g = Some b -> guard_value env g = int_literal b.
Proof. unfold guard_value, macro_value. by intros ->. Qed.

(** The value of a guard after the first inclusion. *)
Lemma process_guard_value env g :
  first_inclusion env ->
  guard_value (process env) g
  = Some (if definedb env "__KERNEL__" then 1
          else if definedb env (marker_of (group_of g)) then 0 else 1)%Z.
Proof.
  intros H. rewrite (guard_value_body _ _ _ (process_guard env g H)).
  by destruct (definedb env "__KERNEL__"), (definedb env (marker_of (group_of g))).
Qed.

(** A guard with a value has that value in [#if]. *)
Lemma if_value_macro_value env n z :
  macro_value env n = Some z -> if_value env n = Some z.
Proof. unfold macro_value, if_value. by destruct (env !! n). Qed.

(** So the UAPI headers' [#if __UAPI_DEF_FOO] sees the value computed
    above. *)
Lemma process_guard_if_value env g :
  first_inclusion env ->
  if_value (process env) (guard_name g) = guard_value (process env) g.
Proof.
  intros H. rewrite (process_guard_value _ _ H).
  apply if_value_macro_value, (process_guard_value _ _ H).
Qed.

End Header.

(** ** The guarantees of the header *)

Section Guarantees.

Implicit Types (env : macro_env) (g : guard) (gr : group) (n : string).

(** The markers are the names the detection blocks test, and every group
    looks for one of them. *)
Lemma markers_tested : tested_names (rows userspace) = markers.
Proof. reflexivity. Qed.

Lemma marker_of_in gr : marker_of gr ∈ markers.
Proof. destruct gr; decide_by_computation. Qed.

Lemma markers_covered :
  Forall (fun m => exists gr, marker_of gr = m) markers.
Proof. repeat constructor; [by exists Ethernet | by exists Tcp | by exists Timespec | by exists Timeval | by exists NetIf | by exists Ipv4 | by exists Xattr]. Qed.

(** Any choice of markers and [__KERNEL__] is a first inclusion. *)
Lemma configuration_lookup_None ms n : n ∉ ms -> configuration ms !! n = None.
Proof.
  intros Hn. unfold configuration. apply not_elem_of_list_to_map_1.
  rewrite <- list_fmap_compose. intros H. apply Hn.
  apply list_elem_of_fmap in H as [m [-> Hm]]. exact Hm.
Qed.

Lemma configuration_first_inclusion ms :
  ms ⊆ "__KERNEL__" :: markers -> first_inclusion (configuration ms).
Proof.
  intros Hms. apply configuration_lookup_None. intros Hin.
  apply Hms in Hin. revert Hin. decide_by_computation.
Qed.

Lemma guards_of_spec gr g : g ∈ guards_of gr <-> group_of g = gr.
Proof.
  unfold guards_of. rewrite list_elem_of_filter. split; [by intros [? _]|].
  intros H. split; [done|]. destruct g; decide_by_computation.
Qed.

(** C1 (as stated, refuted).  With [__KERNEL__] and [_TIME_H] both defined,
    the first inclusion leaves [__UAPI_DEF_TIMESPEC] at 1 although the marker
    of its group is defined: the marker does not decide its group alone. *)
Lemma kernel_overrides_marker :
  first_inclusion (configuration ["__KERNEL__"; "_TIME_H"]) /\
  definedb (configuration ["__KERNEL__"; "_TIME_H"])
           (marker_of (group_of __UAPI_DEF_TIMESPEC)) = true /\
  guard_value (process (configuration ["__KERNEL__"; "_TIME_H"]))
              __UAPI_DEF_TIMESPEC = Some 1%Z /\
  ~ marker_alone_decides.
Proof.
  split; [reflexivity|]. split; [reflexivity|]. split; [reflexivity|].
  intros H.
  destruct (H (configuration ["__KERNEL__"; "_TIME_H"]) __UAPI_DEF_TIMESPEC)
    as [H0 _]; [reflexivity|].
  specialize (H0 eq_refl). vm_compute in H0. discriminate H0.
Qed.

(** C1 (amended).  On the first inclusion, for every guard: if [__KERNEL__]
    is not defined and the marker of the guard's group is defined, the guard
    is 0; if the marker is not defined, the guard is 1. *)
Theorem marker_decides_group_in_userspace env g :
  first_inclusion env ->
  (definedb env "__KERNEL__" = false ->
   definedb env (marker_of (group_of g)) = true ->
   guard_value (process env) g = Some 0%Z) /\
  (definedb env (marker_of (group_of g)) = false ->
   guard_value (process env) g = Some 1%Z).
Proof.
  intros H. rewrite (process_guard_value _ _ H). split.
  - by intros -> ->.
  - intros ->. by destruct (definedb env "__KERNEL__").
Qed.

Lemma marker_decides_group_in_userspace_witness :
  first_inclusion (configuration ["_TIME_H"]) /\
  definedb (configuration ["_TIME_H"]) "__KERNEL__" = false /\
  definedb (configuration ["_TIME_H"]) "_TIME_H" = true /\
  definedb (configuration ["_TIME_H"]) "_SYS_TIME_H" = false /\
  guard_value (process (configuration ["_TIME_H"])) __UAPI_DEF_ITIMERSPEC
    = Some 0%Z /\
  guard_value (process (configuration ["_TIME_H"])) __UAPI_DEF_TIMEVAL
    = Some 1%Z.
Proof.
  do 4 (split; [reflexivity|]). split.
  - apply (marker_decides_group_in_userspace
             (configuration ["_TIME_H"]) __UAPI_DEF_ITIMERSPEC);
      reflexivity.
  - apply (marker_decides_group_in_userspace
             (configuration ["_TIME_H"]) __UAPI_DEF_TIMEVAL);
      reflexivity.
Defined.

(** C2.  On the first inclusion with [__KERNEL__] defined every guard is
    set to 1, whichever markers are defined. *)
Theorem kernel_sets_every_guard env g :
  first_inclusion env ->
  definedb env "__KERNEL__" = true ->
  process env !! guard_name g = Some "1" /\
  guard_value (process env) g = Some 1%Z.
Proof.
  intros H Hk. rewrite (process_guard_value _ _ H), (process_guard _ _ H).
  by rewrite Hk.
Qed.

Lemma kernel_sets_every_guard_witness :
  first_inclusion (configuration ["__KERNEL__"; "_NETINET_IN_H"; "_NET_IF_H"]) /\
  definedb (configuration ["__KERNEL__"; "_NETINET_IN_H"; "_NET_IF_H"])
           "__KERNEL__" = true /\
  process (configuration ["__KERNEL__"; "_NETINET_IN_H"; "_NET_IF_H"])
    !! guard_name __UAPI_DEF_IN6_ADDR = Some "1" /\
  guard_value
    (process (configuration ["__KERNEL__"; "_NETINET_IN_H"; "_NET_IF_H"]))
    __UAPI_DEF_IN6_ADDR = Some 1%Z.
Proof.
  do 2 (split; [reflexivity|]).
  apply (kernel_sets_every_guard
           (configuration ["__KERNEL__"; "_NETINET_IN_H"; "_NET_IF_H"])
           __UAPI_DEF_IN6_ADDR); reflexivity.
Defined.

(** C3.  On the first inclusion with none of the markers defined every
    guard is 1 (with or without [__KERNEL__]). *)
Theorem no_marker_every_guard_set env g :
  first_inclusion env ->
  (forall gr, definedb env (marker_of gr) = false) ->
  guard_value (process env) g = Some 1%Z.
Proof.
  intros H Hm. rewrite (process_guard_value _ _ H), Hm.
  by destruct (definedb env "__KERNEL__").
Qed.

Lemma no_marker_every_guard_set_witness :
  first_inclusion (configuration []) /\
  guard_value (process (configuration [])) __UAPI_DEF_XATTR = Some 1%Z.
Proof.
  split; [reflexivity|].
  apply (no_marker_every_guard_set (configuration []) __UAPI_DEF_XATTR).
  - reflexivity.
  - intros gr. destruct gr; reflexivity.
Defined.

(** The conditional of lines 100-147 is the one block that defines the
    guards of in.h and in6.h. *)
Lemma in_guards_block :
  rows userspace !! 5%nat
  = Some (IfDefined "_NETINET_IN_H", map guard_name in_guards).
Proof. reflexivity. Qed.

(** C4.  [_NETINET_IN_H] is the marker of both the in.h and the in6.h
    group.  They have fourteen guards together, [__UAPI_DEF_IN6_ADDR_ALT]
    among them; on the first inclusion all fourteen are 0 when
    [_NETINET_IN_H] is defined and [__KERNEL__] is not, and all are 1 when
    [_NETINET_IN_H] is not defined. *)
Theorem netinet_in_controls_in_and_in6 env :
  first_inclusion env ->
  (marker_of Ipv4 = "_NETINET_IN_H" /\ marker_of Ipv6 = "_NETINET_IN_H") /\
  (length in_guards = 14%nat /\ __UAPI_DEF_IN6_ADDR_ALT ∈ in_guards) /\
  (definedb env "__KERNEL__" = false ->
   definedb env "_NETINET_IN_H" = true ->
   Forall (fun g => guard_value (process env) g = Some 0%Z) in_guards) /\
  (definedb env "_NETINET_IN_H" = false ->
   Forall (fun g => guard_value (process env) g = Some 1%Z) in_guards).
Proof.
  intros H.
  assert (Hm : forall g, g ∈ in_guards ->
            marker_of (group_of g) = "_NETINET_IN_H").
  { intros g Hg. unfold in_guards in Hg. apply elem_of_app in Hg.
    destruct Hg as [Hg|Hg]; apply guards_of_spec in Hg; by rewrite Hg. }
  split; [done|]. split; [split; [reflexivity | decide_by_computation]|].
  split.
  - intros Hk Hin. apply Forall_forall. intros g Hg.
    apply (marker_decides_group_in_userspace env g H); [done|].
    by rewrite (Hm g Hg).
  - intros Hin. apply Forall_forall. intros g Hg.
    apply (marker_decides_group_in_userspace env g H).
    by rewrite (Hm g Hg).
Qed.

Lemma netinet_in_controls_in_and_in6_witness :
  first_inclusion (configuration ["_NETINET_IN_H"]) /\
  Forall (fun g => guard_value (process (configuration ["_NETINET_IN_H"])) g
                   = Some 0%Z) in_guards /\
  first_inclusion (configuration ["_TIME_H"]) /\
  Forall (fun g => guard_value (process (configuration ["_TIME_H"])) g
                   = Some 1%Z) in_guards.
Proof.
  split; [reflexivity|]. split.
  - apply (netinet_in_controls_in_and_in6 (configuration ["_NETINET_IN_H"]));
      reflexivity.
  - split; [reflexivity|].
    apply (netinet_in_controls_in_and_in6 (configuration ["_TIME_H"]));
      reflexivity.
Defined.

(** C5.  On the first inclusion, in every configuration of markers and
    [__KERNEL__], two guards of the same group have the same value. *)
Theorem same_group_same_value env g1 g2 :
  first_inclusion env ->
  group_of g1 = group_of g2 ->
  exists z, guard_value (process env) g1 = Some z /\
            guard_value (process env) g2 = Some z.
Proof.
  intros H Hg. rewrite !(process_guard_value _ _ H), Hg. eauto.
Qed.

Lemma same_group_same_value_witness :
  first_inclusion (configuration ["_TIME_H"; "_NET_IF_H"]) /\
  group_of __UAPI_DEF_TIMESPEC = group_of __UAPI_DEF_ITIMERSPEC /\
  exists z,
    guard_value (process (configuration ["_TIME_H"; "_NET_IF_H"]))
                __UAPI_DEF_TIMESPEC = Some z /\
    guard_value (process (configuration ["_TIME_H"; "_NET_IF_H"]))
                __UAPI_DEF_ITIMERSPEC = Some z.
Proof.
  do 2 (split; [reflexivity|]).
  apply (same_group_same_value (configuration ["_TIME_H"; "_NET_IF_H"])
           __UAPI_DEF_TIMESPEC __UAPI_DEF_ITIMERSPEC); reflexivity.
Defined.

(** C6.  On the first inclusion, in every configuration, every guard is
    defined afterwards, and its replacement list is exactly 0 or exactly 1. *)
Theorem every_guard_defined_boolean env g :
  first_inclusion env ->
  (process env !! guard_name g = Some "0" /\
   guard_value (process env) g = Some 0%Z) \/
  (process env !! guard_name g = Some "1" /\
   guard_value (process env) g = Some 1%Z).
Proof.
  intros H. rewrite (process_guard_value _ _ H), (process_guard _ _ H).
  destruct (definedb env "__KERNEL__"), (definedb env (marker_of (group_of g)));
    auto.
Qed.

Lemma every_guard_defined_boolean_witness :
  first_inclusion (configuration ["_SYS_XATTR_H"]) /\
  ((process (configuration ["_SYS_XATTR_H"]) !! guard_name __UAPI_DEF_XATTR
    = Some "0" /\
    guard_value (process (configuration ["_SYS_XATTR_H"])) __UAPI_DEF_XATTR
    = Some 0%Z) \/
   (process (configuration ["_SYS_XATTR_H"]) !! guard_name __UAPI_DEF_XATTR
    = Some "1" /\
    guard_value (process (configuration ["_SYS_XATTR_H"])) __UAPI_DEF_XATTR
    = Some 1%Z)).
Proof.
  split; [reflexivity|].
  apply (every_guard_defined_boolean (configuration ["_SYS_XATTR_H"])
           __UAPI_DEF_XATTR). reflexivity.
Defined.

Lemma all_guards_complete g : g ∈ all_guards.
Proof. destruct g; decide_by_computation. Qed.

Lemma all_groups_complete gr : gr ∈ all_groups.
Proof. destruct gr; decide_by_computation. Qed.

(** Every guard is spelled [__UAPI_DEF_...]. *)
Lemma guard_names_prefix :
  Forall (fun n => String.prefix "__UAPI_DEF_" n = true) guard_names.
Proof. decide_by_computation. Qed.

(** C7 (as stated, refuted).  The group of [struct timespec] and
    [struct itimerspec] has two guards with different names, so the groups
    do not have one guard name each. *)
Lemma timespec_group_has_two_guards :
  group_of __UAPI_DEF_TIMESPEC = group_of __UAPI_DEF_ITIMERSPEC /\
  guard_name __UAPI_DEF_TIMESPEC <> guard_name __UAPI_DEF_ITIMERSPEC /\
  ~ one_guard_per_group.
Proof.
  split; [reflexivity|]. split; [discriminate|].
  intros H. destruct (H Timespec) as (g & _ & Hg).
  pose proof (Hg __UAPI_DEF_TIMESPEC eq_refl) as H1.
  pose proof (Hg __UAPI_DEF_ITIMERSPEC eq_refl) as H2.
  rewrite <- H2 in H1. discriminate H1.
Qed.

(** C7 (amended).  The interface is a fixed set of 28 guard names, pairwise
    different: they are, with the include guard, exactly the names the
    directives of the header define.  Every group has at least one guard
    name: one each for the Ethernet header, the TCP header and xattr, two
    for timespec, three for timeval, six for the interface group, six for
    in.h and eight for in6.h. *)
Theorem guard_interface :
  NoDup guard_names /\
  length guard_names = 28%nat /\
  (forall n, n ∈ defined_names libc_compat_h
             <-> n = include_guard \/ n ∈ guard_names) /\
  (forall n, n ∈ guard_names <-> exists g, n = guard_name g) /\
  (forall gr, guards_of gr <> []) /\
  map (fun gr => length (guards_of gr)) all_groups
  = [1; 1; 2; 3; 6; 6; 8; 1]%nat.
Proof.
  split; [decide_by_computation|]. split; [reflexivity|].
  split; [apply header_names|]. split.
  - intros n. split; [apply guard_names_inv|].
    intros [g ->]. apply guard_name_in.
  - split; [|reflexivity]. intros gr. destruct gr; discriminate.
Qed.

(** A name that is neither the include guard nor spelled [__UAPI_DEF_...]
    is none of the names the header defines. *)
Lemma not_prefixed_not_guard n :
  n <> include_guard -> String.prefix "__UAPI_DEF_" n = false ->
  n ∉ include_guard :: guard_names.
Proof.
  intros Hn Hp Hin. apply elem_of_cons in Hin as [->|Hin]; [done|].
  pose proof guard_names_prefix as HF. rewrite Forall_forall in HF.
  specialize (HF _ Hin). congruence.
Qed.

(** C8.  Including the header changes the binding of no macro other than
    the include guard and the guards: any other name is bound afterwards
    exactly as it was before (and is not defined if it was not). *)
Theorem process_frame env n :
  n ∉ include_guard :: guard_names ->
  process env !! n = env !! n.
Proof. apply process_other. Qed.

Lemma process_frame_witness :
  ("_TIME_H" ∉ include_guard :: guard_names) /\
  ("NDEBUG" ∉ include_guard :: guard_names) /\
  process (configuration ["_TIME_H"]) !! "_TIME_H" = Some "" /\
  process (configuration ["_TIME_H"]) !! "NDEBUG" = None.
Proof.
  split; [decide_by_computation|]. split; [decide_by_computation|]. split.
  - rewrite (process_frame (configuration ["_TIME_H"]) "_TIME_H");
      [reflexivity | decide_by_computation].
  - rewrite (process_frame (configuration ["_TIME_H"]) "NDEBUG");
      [reflexivity | decide_by_computation].
Defined.

(** C9.  Including the header a second time, from the environment the
    first inclusion produced, changes nothing: the include guard is defined
    by then and the body is skipped. *)
Theorem process_idempotent env :
  defined (process env) include_guard /\
  process (process env) = process env.
Proof.
  split; [apply process_include_guard|].
  apply process_again. unfold first_inclusion.
  destruct (process_include_guard env) as [b Hb]. by rewrite Hb.
Qed.

(** C10.  Two first inclusions that agree on whether [__KERNEL__] is defined
    and on whether the marker of a guard's group is defined give the guard
    the same replacement list and value, however the environments differ
    otherwise. *)
Theorem group_noninterference env1 env2 g :
  first_inclusion env1 ->
  first_inclusion env2 ->
  definedb env1 "__KERNEL__" = definedb env2 "__KERNEL__" ->
  definedb env1 (marker_of (group_of g)) = definedb env2 (marker_of (group_of g)) ->
  process env1 !! guard_name g = process env2 !! guard_name g /\
  guard_value (process env1) g = guard_value (process env2) g.
Proof.
  intros H1 H2 Hk Hm.
  rewrite !(process_guard_value _ _ H1), !(process_guard_value _ _ H2).
  rewrite (process_guard _ _ H1), (process_guard _ _ H2).
  by rewrite Hk, Hm.
Qed.

Lemma group_noninterference_witness :
  first_inclusion (configuration ["_TIME_H"]) /\
  first_inclusion
    (configuration ["_TIME_H"; "_NETINET_IN_H"; "_NET_IF_H"; "_SYS_XATTR_H"]) /\
  process (configuration ["_TIME_H"]) !! guard_name __UAPI_DEF_TIMESPEC
  = process
      (configuration ["_TIME_H"; "_NETINET_IN_H"; "_NET_IF_H"; "_SYS_XATTR_H"])
    !! guard_name __UAPI_DEF_TIMESPEC /\
  guard_value (process (configuration ["_TIME_H"])) __UAPI_DEF_TIMESPEC
  = guard_value
      (process
         (configuration ["_TIME_H"; "_NETINET_IN_H"; "_NET_IF_H"; "_SYS_XATTR_H"]))
      __UAPI_DEF_TIMESPEC.
Proof.
  do 2 (split; [reflexivity|]).
  apply (group_noninterference
           (configuration ["_TIME_H"])
           (configuration ["_TIME_H"; "_NETINET_IN_H"; "_NET_IF_H"; "_SYS_XATTR_H"])
           __UAPI_DEF_TIMESPEC); reflexivity.
Defined.

End Guarantees.

(** ** The definitions a run executes *)

Section Logs.

Implicit Types (env : macro_env) (d : directive) (ds : list directive)
  (n m body : string) (c : pp_cond) (l : list (string * string)).

Lemma exec_log_Cond c thn els env :
  exec_log (Cond c thn els) env
  = if cond_holds env c then run_log thn env else run_log els env.
Proof. reflexivity. Qed.

Lemma exec_diag_Cond c thn els env :
  exec_diag (Cond c thn els) env
  = if cond_holds env c then run_diag thn env else run_diag els env.
Proof. reflexivity. Qed.

Lemma run_log_cons d ds env :
  run_log (d :: ds) env = exec_log d env ++ run_log ds (exec d env).
Proof. reflexivity. Qed.

Lemma run_diag_cons d ds env :
  run_diag (d :: ds) env = exec_diag d env ++ run_diag ds (exec d env).
Proof. reflexivity. Qed.

Lemma replay_app l1 l2 env : replay (l1 ++ l2) env = replay l2 (replay l1 env).
Proof. apply foldl_app. Qed.

Lemma replay_diag_app l1 : forall l2 env,
  replay_diag (l1 ++ l2) env
  = replay_diag l1 env ++ replay_diag l2 (replay l1 env).
Proof.
  induction l1 as [|nb l1 IH]; intros l2 env; [done|].
  simpl. by rewrite IH, app_assoc.
Qed.

(** The environment a run produces is the one its executed definitions
    produce. *)
Lemma run_replay : forall ds env, run ds env = replay (run_log ds env) env.
Proof.
  apply (directive_list_ind
           (fun d => forall env, exec d env = replay (exec_log d env) env)
           (fun ds => forall env, run ds env = replay (run_log ds env) env)).
  - done.
  - intros c thn els IHthn IHels env. rewrite exec_Cond, exec_log_Cond.
    by destruct (cond_holds env c).
  - done.
  - intros d ds IHd IHds env. simpl. by rewrite replay_app, <- IHd, <- IHds.
Qed.

Lemma run_diag_replay : forall ds env,
  run_diag ds env = replay_diag (run_log ds env) env.
Proof.
  apply (directive_list_ind
           (fun d => forall env,
                exec_diag d env = replay_diag (exec_log d env) env)
           (fun ds => forall env,
                run_diag ds env = replay_diag (run_log ds env) env)).
  - intros n body env. simpl. by rewrite app_nil_r.
  - intros c thn els IHthn IHels env. rewrite exec_diag_Cond, exec_log_Cond.
    by destruct (cond_holds env c).
  - done.
  - intros d ds IHd IHds env. simpl.
    rewrite replay_diag_app, IHd, IHds.
    assert (E : exec d env = replay (exec_log d env) env).
    { pose proof (run_replay [d] env) as E. simpl in E.
      by rewrite app_nil_r in E. }
    by rewrite <- E.
Qed.

Lemma redefines_insert_ne env n n' b b' :
  n' <> n -> redefines (<[n' := b']> env) n b = redefines env n b.
Proof. intros Hne. unfold redefines. by rewrite lookup_insert_ne. Qed.

(** Among definitions of pairwise different names, the redefinitions are
    the definitions that change a binding the starting environment has. *)
Lemma replay_diag_NoDup l : forall env n,
  NoDup (map fst l) ->
  n ∈ replay_diag l env
  <-> exists b, (n, b) ∈ l /\ redefines env n b = true.
Proof.
  induction l as [|[n' b'] l IH]; intros env n Hnd.
  - simpl. split; [by intros ?%elem_of_nil | by intros (? & ?%elem_of_nil & _)].
  - simpl in Hnd. apply NoDup_cons in Hnd as [Hn' Hnd].
    simpl. rewrite elem_of_app, (IH _ _ Hnd). split.
    + intros [Hhd | (b & Hin & Hre)].
      * destruct (redefines env n' b') eqn:E; [|by apply elem_of_nil in Hhd].
        apply list_elem_of_singleton in Hhd as ->. exists b'. split; [by left | done].
      * exists b. split; [by right|].
        rewrite redefines_insert_ne in Hre; [done|].
        intros ->. apply Hn'. apply list_elem_of_fmap. by exists (n, b).
    + intros (b & Hin & Hre). apply elem_of_cons in Hin as [[= -> ->] | Hin].
      * left. rewrite Hre. by left.
      * right. exists b. split; [done|].
        rewrite redefines_insert_ne; [done|].
        intros ->. apply Hn'. apply list_elem_of_fmap. by exists (n, b).
Qed.

(** With pairwise different names, a definition that was executed is the
    binding of its name afterwards. *)
Lemma replay_lookup_NoDup l : forall env n b,
  NoDup (map fst l) -> (n, b) ∈ l -> replay l env !! n = Some b.
Proof.
  induction l as [|[n' b'] l IH] using rev_ind; intros env n b Hnd Hin.
  - by apply elem_of_nil in Hin.
  - rewrite replay_app. simpl. rewrite map_app in Hnd. simpl in Hnd.
    apply NoDup_app in Hnd as (Hnd & Hdis & _).
    apply elem_of_app in Hin as [Hin | Hin].
    + rewrite lookup_insert_ne; [by apply IH|].
      intros ->. apply (Hdis n); [|by left].
      apply list_elem_of_fmap. by exists (n, b).
    + apply list_elem_of_singleton in Hin as [= -> ->].
      apply lookup_insert_eq.
Qed.

(** The log of the two shapes. *)
Lemma run_log_set_all body names : forall env,
  run_log (set_all body names) env = map (fun n => (n, body)) names.
Proof.
  induction names as [|n names IH]; intros env; [done|]. simpl. by rewrite IH.
Qed.

Lemma exec_log_block row env :
  map fst (exec_log (block row) env) = row.2.
Proof.
  unfold block. rewrite exec_log_Cond.
  destruct (cond_holds env row.1); rewrite run_log_set_all;
    rewrite <- list_fmap_compose; apply list_fmap_id.
Qed.

(** Whatever the conditions come to, a sequence of detection blocks
    executes one definition for each name of its table, in order. *)
Lemma run_log_blocks tbl : forall env,
  map fst (run_log (blocks tbl) env) = table_names tbl.
Proof.
  induction tbl as [|row tbl IH]; intros env; [done|].
  change (blocks (row :: tbl)) with (block row :: blocks tbl).
  rewrite run_log_cons, map_app, exec_log_block, IH. reflexivity.
Qed.

Lemma owner_None tbl n : n ∉ table_names tbl -> owner tbl n = None.
Proof.
  unfold table_names. induction tbl as [|row tbl IH]; [done|].
  simpl. rewrite not_elem_of_app. intros [Hrow Htbl].
  rewrite (IH Htbl). by rewrite bool_decide_eq_false_2.
Qed.

End Logs.

(** ** Further guarantees of the header *)

Section Further.

Implicit Types (env : macro_env) (g : guard) (gr : group) (n : string)
  (ds : list directive).

Lemma first_inclusion_definedb env :
  first_inclusion env <-> definedb env include_guard = false.
Proof.
  unfold first_inclusion, definedb.
  destruct (env !! include_guard); split; congruence.
Qed.

Lemma header_writes_NoDup : NoDup header_writes.
Proof. decide_by_computation. Qed.

Lemma kernel_writes_NoDup : NoDup (defined_names kernel).
Proof. decide_by_computation. Qed.

Lemma branch_names env :
  forall n, n ∈ defined_names
              (if definedb env "__KERNEL__" then kernel else userspace)
            -> n ∈ guard_names.
Proof.
  intros n. destruct (definedb env "__KERNEL__").
  - apply kernel_names.
  - assert (H : Forall (fun n => n ∈ guard_names) (defined_names userspace))
      by decide_by_computation.
    rewrite Forall_forall in H. apply H.
Qed.

(** The binding of the include guard after an inclusion: the one it had,
    or the empty replacement list of line 49. *)
Lemma process_include_guard_lookup env :
  process env !! include_guard
  = Some (default "" (env !! include_guard)).
Proof.
  destruct (env !! include_guard) as [b|] eqn:E.
  - rewrite process_again; [by rewrite E|]. unfold first_inclusion. congruence.
  - rewrite (process_first _ E), run_frame; [apply lookup_insert_eq|].
    intros Hin%branch_names. revert Hin. decide_by_computation.
Qed.

(** What the first inclusion executes: line 49, then one of the two
    branches. *)
Lemma header_log_first env :
  first_inclusion env ->
  header_log env
  = (include_guard, "")
    :: run_log (if definedb env "__KERNEL__" then kernel else userspace)
               (<[include_guard := ""]> env).
Proof.
  unfold first_inclusion, header_log, libc_compat_h. intros H.
  rewrite run_log_cons, exec_log_Cond, app_nil_r. simpl cond_holds.
  unfold definedb at 1. fold include_guard. rewrite H. simpl negb. cbv iota.
  rewrite run_log_cons. change (exec_log (Define "_LIBC_COMPAT_H" "") env)
    with [(include_guard, "")].
  change (exec (Define "_LIBC_COMPAT_H" "") env)
    with (<[include_guard := ""]> env).
  rewrite run_log_cons, exec_log_Cond, app_nil_r. simpl cond_holds.
  assert (Hk : definedb (<[include_guard := ""]> env) "__KERNEL__"
               = definedb env "__KERNEL__").
  { unfold definedb. by rewrite lookup_insert_ne. }
  rewrite Hk. by destruct (definedb env "__KERNEL__").
Qed.

Lemma header_log_names env :
  first_inclusion env ->
  map fst (header_log env)
  = include_guard
    :: (if definedb env "__KERNEL__" then defined_names kernel
        else guard_names).
Proof.
  intros H. rewrite (header_log_first _ H). simpl. f_equal.
  destruct (definedb env "__KERNEL__").
  - rewrite kernel_shape at 1. rewrite run_log_set_all.
    rewrite <- list_fmap_compose. apply list_fmap_id.
  - rewrite userspace_shape, run_log_blocks. apply userspace_names.
Qed.

Lemma header_log_permutation env :
  first_inclusion env -> map fst (header_log env) ≡ₚ header_writes.
Proof.
  intros H. rewrite (header_log_names _ H). unfold header_writes.
  destruct (definedb env "__KERNEL__"); [|done].
  apply Permutation_skip, NoDup_Permutation.
  - apply kernel_writes_NoDup.
  - pose proof header_writes_NoDup as Hnd.
    unfold header_writes in Hnd. by apply NoDup_cons in Hnd as [_ Hnd].
  - apply kernel_names.
Qed.

Lemma header_log_NoDup env :
  first_inclusion env -> NoDup (map fst (header_log env)).
Proof.
  intros H. rewrite (header_log_permutation _ H). apply header_writes_NoDup.
Qed.

Lemma header_log_skip env : ~ first_inclusion env -> header_log env = [].
Proof.
  unfold first_inclusion, header_log, libc_compat_h. intros H.
  rewrite run_log_cons, exec_log_Cond, app_nil_r. simpl cond_holds.
  unfold definedb. fold include_guard. by destruct (env !! include_guard).
Qed.

(** An executed definition of a guard carries the replacement list the
    first inclusion gives the guard. *)
Lemma header_log_guard env g b :
  first_inclusion env ->
  (guard_name g, b) ∈ header_log env <-> b = guard_body env g.
Proof.
  intros H.
  assert (Hb : forall b', (guard_name g, b') ∈ header_log env ->
                 b' = guard_body env g).
  { intros b' Hin.
    pose proof (replay_lookup_NoDup _ env _ _ (header_log_NoDup _ H) Hin) as E.
    unfold header_log in E. rewrite <- run_replay in E.
    fold (process env) in E. rewrite (process_guard _ _ H) in E.
    unfold guard_body. congruence. }
  split; [apply Hb|]. intros ->.
  assert (Hin : guard_name g ∈ map fst (header_log env)).
  { rewrite (header_log_permutation _ H). right. apply guard_name_in. }
  apply list_elem_of_fmap in Hin as [[n b'] [Hn Hin]]. simpl in Hn. subst n.
  by rewrite <- (Hb b' Hin).
Qed.

(** The redefinitions an inclusion has to diagnose. *)
Lemma header_diag_elem env n :
  n ∈ header_diag env
  <-> definedb env include_guard = false /\
      exists g, n = guard_name g /\ redefines env n (guard_body env g) = true.
Proof.
  unfold header_diag. rewrite run_diag_replay. fold (header_log env).
  destruct (definedb env include_guard) eqn:Hd.
  - rewrite header_log_skip.
    + split; [by intros ?%elem_of_nil | by intros [? _]].
    + rewrite first_inclusion_definedb. congruence.
  - apply first_inclusion_definedb in Hd as H.
    rewrite (replay_diag_NoDup _ _ _ (header_log_NoDup _ H)). split.
    + intros (b & Hin & Hre). split; [done|].
      assert (Hn : n ∈ header_writes).
      { rewrite <- (header_log_permutation _ H).
        apply list_elem_of_fmap. by exists (n, b). }
      apply elem_of_cons in Hn as [-> | Hn].
      * unfold redefines in Hre. by rewrite H in Hre.
      * apply guard_names_inv in Hn as [g ->]. exists g. split; [done|].
        apply (header_log_guard _ _ _ H) in Hin. by rewrite <- Hin.
    + intros (_ & g & -> & Hre). exists (guard_body env g).
      split; [by apply header_log_guard | done].
Qed.

End Further.

(** ** What a translation unit that includes the header can rely on *)

Section Usage.

Implicit Types (env : macro_env) (g : guard) (gr : group) (n : string)
  (ds : list directive).

Lemma guard_name_inj g1 g2 : guard_name g1 = guard_name g2 -> g1 = g2.
Proof. destruct g1, g2; first [reflexivity | discriminate]. Qed.

Lemma redefines_true env n b :
  redefines env n b = true <-> exists b', env !! n = Some b' /\ b' <> b.
Proof.
  unfold redefines. destruct (env !! n) as [b0|].
  - rewrite negb_true_iff, String.eqb_neq. split.
    + intros Hne. by exists b0.
    + by intros (b' & [= ->] & Hne).
  - split; [discriminate | by intros (? & ? & _)].
Qed.

(** Two environments that agree on what the header tests get the same
    bindings for what it defines. *)
Lemma process_agree env env' n :
  (forall m, m ∈ include_guard :: header_reads ->
             definedb env' m = definedb env m) ->
  first_inclusion env ->
  n ∈ header_writes ->
  process env' !! n = process env !! n.
Proof.
  intros Hag H Hn.
  assert (H' : first_inclusion env').
  { apply first_inclusion_definedb. rewrite Hag by (by left).
    by apply first_inclusion_definedb. }
  apply elem_of_cons in Hn as [-> | Hn].
  - rewrite !process_include_guard_lookup. by rewrite H, H'.
  - apply guard_names_inv in Hn as [g ->].
    rewrite (process_guard _ _ H), (process_guard _ _ H').
    rewrite !Hag; [done | |].
    + right. right. apply marker_of_in.
    + right. by left.
Qed.

(** X1.  On the first inclusion a guard is 0 exactly when [__KERNEL__] is
    not defined and the marker of its group is; it is 1 exactly when
    [__KERNEL__] is defined or the marker is not. *)
Theorem guard_zero_iff env g :
  first_inclusion env ->
  (guard_value (process env) g = Some 0%Z
   <-> definedb env "__KERNEL__" = false /\
       definedb env (marker_of (group_of g)) = true) /\
  (guard_value (process env) g = Some 1%Z
   <-> definedb env "__KERNEL__" = true \/
       definedb env (marker_of (group_of g)) = false).
Proof.
  intros H. rewrite (process_guard_value _ _ H).
  destruct (definedb env "__KERNEL__"),
    (definedb env (marker_of (group_of g))); split; split;
    first [done | by intros [? ?] | by intros [?|?] | by left | by right | idtac].
Qed.

Lemma guard_zero_iff_witness :
  first_inclusion (configuration ["_NET_IF_H"]) /\
  (guard_value (process (configuration ["_NET_IF_H"])) __UAPI_DEF_IF_IFREQ
   = Some 0%Z
   <-> definedb (configuration ["_NET_IF_H"]) "__KERNEL__" = false /\
       definedb (configuration ["_NET_IF_H"]) "_NET_IF_H" = true).
Proof.
  split; [reflexivity|].
  apply (guard_zero_iff (configuration ["_NET_IF_H"]) __UAPI_DEF_IF_IFREQ).
  reflexivity.
Defined.

(** X2.  Defining more markers, or leaving [__KERNEL__] out, never turns a
    guard on: if the second environment defines the group's marker whenever
    the first does, and [__KERNEL__] only if the first does, the guard's
    value after the second is at most its value after the first. *)
Theorem guard_value_antitone env1 env2 g :
  first_inclusion env1 ->
  first_inclusion env2 ->
  (definedb env2 "__KERNEL__" = true -> definedb env1 "__KERNEL__" = true) ->
  (definedb env1 (marker_of (group_of g)) = true ->
   definedb env2 (marker_of (group_of g)) = true) ->
  exists z1 z2,
    guard_value (process env1) g = Some z1 /\
    guard_value (process env2) g = Some z2 /\
    (z2 <= z1)%Z.
Proof.
  intros H1 H2 Hk Hm.
  rewrite (process_guard_value _ _ H1), (process_guard_value _ _ H2).
  do 2 eexists. split; [reflexivity|]. split; [reflexivity|].
  destruct (definedb env1 "__KERNEL__"), (definedb env2 "__KERNEL__"),
    (definedb env1 (marker_of (group_of g))),
    (definedb env2 (marker_of (group_of g)));
    first [done | by specialize (Hk eq_refl) | by specialize (Hm eq_refl)].
Qed.

Lemma guard_value_antitone_witness :
  first_inclusion (configuration ["_SYS_TIME_H"]) /\
  first_inclusion (configuration ["_SYS_TIME_H"; "_TIME_H"]) /\
  exists z1 z2,
    guard_value (process (configuration ["_SYS_TIME_H"])) __UAPI_DEF_TIMESPEC
    = Some z1 /\
    guard_value (process (configuration ["_SYS_TIME_H"; "_TIME_H"]))
                __UAPI_DEF_TIMESPEC
    = Some z2 /\
    (z2 <= z1)%Z.
Proof.
  do 2 (split; [reflexivity|]).
  apply (guard_value_antitone
           (configuration ["_SYS_TIME_H"])
           (configuration ["_SYS_TIME_H"; "_TIME_H"]) __UAPI_DEF_TIMESPEC);
    first [reflexivity | discriminate].
Defined.

(** X3.  The macros that are defined after an inclusion: on a first
    inclusion, the ones defined before together with the include guard and
    all 28 guards, whatever the configuration; on a later inclusion, the ones
    defined before.  No macro is ever undefined. *)
Theorem process_dom env :
  dom (process env)
  = if definedb env include_guard then dom env
    else dom env ∪ list_to_set header_writes.
Proof.
  destruct (definedb env include_guard) eqn:Hd.
  - rewrite process_again; [done|]. rewrite first_inclusion_definedb. congruence.
  - apply first_inclusion_definedb in Hd as H. apply set_eq. intros n.
    rewrite elem_of_union, !elem_of_dom, elem_of_list_to_set.
    destruct (decide (n ∈ header_writes)) as [Hn | Hn].
    + split; [by right | intros _].
      apply elem_of_cons in Hn as [-> | Hn].
      * rewrite process_include_guard_lookup. eauto.
      * apply guard_names_inv in Hn as [g ->].
        rewrite (process_guard _ _ H). eauto.
    + rewrite (process_other _ _ Hn). split; [by left | by intros [?|?]].
Qed.

(** X4.  The include guard after an inclusion: bound as it was when it was
    already defined, and to the empty replacement list otherwise. *)
Theorem include_guard_binding env :
  process env !! include_guard = Some (default "" (env !! include_guard)).
Proof. apply process_include_guard_lookup. Qed.

(** X5.  With none of the markers defined, the groups of lines 53-154 and
    the [#else] group of lines 161-196 produce the same environment: the
    kernel branch is the userspace branch of a translation unit that has
    included no competing libc header. *)
Theorem kernel_branch_is_userspace_without_markers env :
  (forall m, m ∈ markers -> definedb env m = false) ->
  run userspace env = run kernel env.
Proof.
  intros Hm. apply map_eq. intros n.
  rewrite userspace_shape, run_blocks by apply userspace_separated.
  rewrite kernel_shape at 1. rewrite run_set_all.
  destruct (decide (n ∈ guard_names)) as [Hn | Hn].
  - rewrite bool_decide_eq_true_2 by (by apply kernel_names).
    apply guard_names_inv in Hn as [g ->].
    destruct (owner_guard g) as (c & -> & Hc).
    by rewrite Hc, (Hm _ (marker_of_in _)).
  - rewrite bool_decide_eq_false_2 by (by rewrite kernel_names).
    rewrite owner_None; [done|]. by rewrite userspace_names.
Qed.

Lemma kernel_branch_is_userspace_without_markers_witness :
  (forall m, m ∈ markers -> definedb (configuration ["__KERNEL__"]) m = false) /\
  run userspace (configuration ["__KERNEL__"])
  = run kernel (configuration ["__KERNEL__"]).
Proof.
  assert (H : forall m, m ∈ markers ->
                definedb (configuration ["__KERNEL__"]) m = false).
  { apply Forall_forall. decide_by_computation. }
  split; [exact H|].
  apply (kernel_branch_is_userspace_without_markers
           (configuration ["__KERNEL__"]) H).
Defined.

(** X6.  The guards are decided at the first inclusion.  Whatever is
    defined between two inclusions (a marker, say, by a libc header that
    comes after), the later inclusion changes nothing, and a guard that was
    not redefined in between still has the value of the first inclusion. *)
Theorem later_inclusion_keeps_guards env ds g :
  guard_name g ∉ defined_names ds ->
  process (run ds (process env)) = run ds (process env) /\
  guard_value (process (run ds (process env))) g
  = guard_value (process env) g.
Proof.
  intros Hg.
  assert (E : process (run ds (process env)) = run ds (process env)).
  { apply process_again. unfold first_inclusion.
    destruct (run_defined_mono ds _ _ (process_include_guard env)) as [b Hb].
    by rewrite Hb. }
  split; [done|]. rewrite E. unfold guard_value, macro_value.
  by rewrite (run_frame _ _ _ Hg).
Qed.

Lemma later_inclusion_keeps_guards_witness :
  (guard_name __UAPI_DEF_TIMESPEC ∉ defined_names [Define "_TIME_H" ""]) /\
  definedb (run [Define "_TIME_H" ""] (process (configuration []))) "_TIME_H"
  = true /\
  guard_value
    (process (run [Define "_TIME_H" ""] (process (configuration []))))
    __UAPI_DEF_TIMESPEC
  = Some 1%Z.
Proof.
  assert (H : guard_name __UAPI_DEF_TIMESPEC
              ∉ defined_names [Define "_TIME_H" ""])
    by decide_by_computation.
  split; [exact H|]. split; [reflexivity|].
  rewrite (proj2 (later_inclusion_keeps_guards
                    (configuration []) [Define "_TIME_H" ""]
                    __UAPI_DEF_TIMESPEC H)).
  reflexivity.
Defined.

(** X7.  The header reads nothing but [__KERNEL__], the seven markers and
    its include guard: defining, redefining or removing any macro it neither
    tests nor defines, before the inclusion, has the same result as doing so
    after it. *)
Theorem process_commutes_with_unrelated env n b :
  n ∉ header_reads ++ header_writes ->
  process (<[n := b]> env) = <[n := b]> (process env) /\
  process (delete n env) = delete n (process env).
Proof.
  intros Hn. apply not_elem_of_app in Hn as [Hr Hw].
  assert (Hne : forall m, m ∈ include_guard :: header_reads -> n <> m).
  { intros m Hm ->. apply elem_of_cons in Hm as [-> | Hm]; [|done].
    apply Hw. by left. }
  destruct (definedb env include_guard) eqn:Hd.
  - assert (Hnf : ~ first_inclusion env)
      by (rewrite first_inclusion_definedb; congruence).
    rewrite (process_again env Hnf).
    split; apply process_again; unfold first_inclusion in *.
    + rewrite lookup_insert_ne; [done|]. apply Hne. by left.
    + rewrite lookup_delete_ne; [done|]. apply Hne. by left.
  - apply first_inclusion_definedb in Hd as H.
    split; apply map_eq; intros k.
    + destruct (decide (n = k)) as [<- | Hk].
      * by rewrite (process_other _ _ Hw), !lookup_insert_eq.
      * rewrite (lookup_insert_ne _ _ _ _ Hk).
        destruct (decide (k ∈ header_writes)) as [Hin | Hin].
        -- apply process_agree; [|done|done].
           intros m Hm. unfold definedb.
           rewrite lookup_insert_ne; [done | by apply Hne].
        -- by rewrite !(process_other _ _ Hin), lookup_insert_ne.
    + destruct (decide (n = k)) as [<- | Hk].
      * by rewrite (process_other _ _ Hw), !lookup_delete_eq.
      * rewrite (lookup_delete_ne _ _ _ Hk).
        destruct (decide (k ∈ header_writes)) as [Hin | Hin].
        -- apply process_agree; [|done|done].
           intros m Hm. unfold definedb.
           rewrite lookup_delete_ne; [done | by apply Hne].
        -- by rewrite !(process_other _ _ Hin), lookup_delete_ne.
Qed.

Lemma process_commutes_with_unrelated_witness :
  ("__GLIBC__" ∉ header_reads ++ header_writes) /\
  process (<["__GLIBC__" := "2"]> (configuration ["_NETINET_IN_H"]))
  = <["__GLIBC__" := "2"]> (process (configuration ["_NETINET_IN_H"])) /\
  process (delete "__GLIBC__" (configuration ["_NETINET_IN_H"]))
  = delete "__GLIBC__" (process (configuration ["_NETINET_IN_H"])).
Proof.
  assert (H : "__GLIBC__" ∉ header_reads ++ header_writes)
    by decide_by_computation.
  split; [exact H|].
  apply (process_commutes_with_unrelated
           (configuration ["_NETINET_IN_H"]) "__GLIBC__" "2" H).
Defined.

(** X8.  A first inclusion executes 29 definitions, one for the include
    guard and one for each guard: on neither branch is a name defined twice
    or left out. *)
Theorem first_inclusion_defines_each_name_once env :
  first_inclusion env ->
  map fst (header_log env) ≡ₚ header_writes /\
  NoDup (map fst (header_log env)) /\
  length (header_log env) = 29%nat.
Proof.
  intros H. split; [by apply header_log_permutation|].
  split; [by apply header_log_NoDup|].
  rewrite <- (length_fmap fst), (header_log_permutation _ H). reflexivity.
Qed.

Lemma first_inclusion_defines_each_name_once_witness :
  first_inclusion (configuration ["__KERNEL__"; "_TIME_H"]) /\
  map fst (header_log (configuration ["__KERNEL__"; "_TIME_H"]))
    ≡ₚ header_writes /\
  NoDup (map fst (header_log (configuration ["__KERNEL__"; "_TIME_H"]))) /\
  length (header_log (configuration ["__KERNEL__"; "_TIME_H"])) = 29%nat.
Proof.
  split; [reflexivity|].
  apply (first_inclusion_defines_each_name_once
           (configuration ["__KERNEL__"; "_TIME_H"])).
  reflexivity.
Defined.

(** X9.  With the include guard already defined, an inclusion executes no
    definition, diagnoses nothing and leaves the environment as it is; a
    guard that was not defined stays undefined, so that [#if] on it sees 0. *)
Theorem later_inclusion_skips env :
  definedb env include_guard = true ->
  process env = env /\
  header_log env = [] /\
  header_diag env = [] /\
  (forall g, env !! guard_name g = None ->
             if_value (process env) (guard_name g) = Some 0%Z).
Proof.
  intros Hd.
  assert (Hnf : ~ first_inclusion env)
    by (rewrite first_inclusion_definedb; congruence).
  split; [by apply process_again|]. split; [by apply header_log_skip|]. split.
  - unfold header_diag. rewrite run_diag_replay. fold (header_log env).
    by rewrite header_log_skip.
  - intros g Hg. rewrite process_again by done. unfold if_value. by rewrite Hg.
Qed.

Lemma later_inclusion_skips_witness :
  definedb (configuration ["_LIBC_COMPAT_H"; "_TIME_H"]) include_guard = true /\
  process (configuration ["_LIBC_COMPAT_H"; "_TIME_H"])
  = configuration ["_LIBC_COMPAT_H"; "_TIME_H"] /\
  if_value (process (configuration ["_LIBC_COMPAT_H"; "_TIME_H"]))
           (guard_name __UAPI_DEF_TIMESPEC) = Some 0%Z.
Proof.
  split; [reflexivity|].
  destruct (later_inclusion_skips
              (configuration ["_LIBC_COMPAT_H"; "_TIME_H"]) eq_refl)
    as (E & _ & _ & Hif).
  split; [exact E|]. apply Hif. reflexivity.
Defined.

(** X10.  The redefinitions an inclusion has to diagnose are definitions
    of guards only, and the definition of a guard is one of them exactly
    when this is a first inclusion and the guard is already defined with a
    replacement list other than the one it gets. *)
Theorem header_diag_exact env :
  (forall n, n ∈ header_diag env -> n ∈ guard_names) /\
  (forall g, guard_name g ∈ header_diag env
             <-> definedb env include_guard = false /\
                 exists b, env !! guard_name g = Some b /\
                           b <> guard_body env g).
Proof.
  split.
  - intros n (_ & g & -> & _)%header_diag_elem. apply guard_name_in.
  - intros g. rewrite header_diag_elem, <- redefines_true. split.
    + intros (Hd & g' & Hg' & Hre). apply guard_name_inj in Hg' as <-. done.
    + intros (Hd & Hre). split; [done|]. by exists g.
Qed.

(** X11.  Included into a translation unit that has defined none of the
    guards, the header redefines nothing. *)
Theorem header_diag_clean env :
  (forall g, env !! guard_name g = None) ->
  header_diag env = [].
Proof.
  intros Hcl. destruct (header_diag env) as [|n l] eqn:E; [done|].
  assert (Hn : n ∈ header_diag env) by (rewrite E; by left).
  apply header_diag_elem in Hn as (_ & g & -> & Hre).
  unfold redefines in Hre. by rewrite Hcl in Hre.
Qed.

Lemma header_diag_clean_witness :
  (forall g, configuration ["_TIME_H"; "_NETINET_IN_H"] !! guard_name g = None) /\
  header_diag (configuration ["_TIME_H"; "_NETINET_IN_H"]) = [].
Proof.
  assert (H : forall g, configuration ["_TIME_H"; "_NETINET_IN_H"]
                        !! guard_name g = None)
    by (intros g; destruct g; reflexivity).
  split; [exact H|].
  apply (header_diag_clean (configuration ["_TIME_H"; "_NETINET_IN_H"]) H).
Defined.

End Usage.
